(** * TargetPool: the resolution cache of syntest-solidity

    A shallow embedding of the class [TargetPool] (the pool "for retrieving
    and caching expensive processing calls") together with the properties of
    its caches.

    The pool is a mutable object; its methods are embedded as computations
    over the pool's fields in a state-and-exception monad.  A JavaScript
    [throw] keeps every mutation that happened before it, so a computation
    always returns the pool it reached, paired with either the thrown
    exception or the returned value. *)

From Stdlib Require Import Ascii.
From stdpp Require Import gmap strings list fin_maps.

Local Open Scope string_scope.

(** ** Values with an identity

    Syntax trees, control-flow graphs, generated maps and targets are
    JavaScript objects: two of them can carry the same content and still be
    different instances.  An object is its content together with the
    identity it received when it was allocated. *)

Record obj (A : Type) : Type := Obj { oid : nat; val : A }.
Arguments Obj {A} _ _.
Arguments oid {A} _.
Arguments val {A} _.

(** What a method can throw: a [TypeError] of the runtime (a property of
    [undefined] was read; the argument is the property), or an [Error]
    carrying a message. *)
Inductive exn : Type :=
  | TypeError (reading : string)
  | Error (message : string).

(** One entry per invocation of a generator, newest first; the entry is
    written when the generator is called, whether it returns or throws. *)
Inductive event : Type :=
  | SourceGenerated (path : string)
  | ASTGenerated (source : string)
  | TargetMapGenerated (ast : nat)
  | CFGGenerated (ast : nat).

Definition is_source_event (e : event) : bool :=
  match e with SourceGenerated _ => true | _ => false end.
Definition is_ast_event (e : event) : bool :=
  match e with ASTGenerated _ => true | _ => false end.
Definition is_target_map_event (e : event) : bool :=
  match e with TargetMapGenerated _ => true | _ => false end.
Definition is_cfg_event (e : event) : bool :=
  match e with CFGGenerated _ => true | _ => false end.

(** [calls f t] counts the invocations selected by [f] in the trace [t]. *)
Definition calls (f : event -> bool) (t : list event) : nat :=
  length (List.filter f t).

(** [occurs_in x m]: the text [x] appears inside the message [m]. *)
Definition occurs_in (x m : string) : Prop :=
  exists before after, m = before ++ x ++ after.

(** ** The collaborators

    The pool is constructed over four generators and reaches the file
    system through [path.resolve]; it hands its results to a dependency
    analyzer.  None of them is part of the sources at hand: the pool is
    verified against their interface.

    [World] is the state of the outside world the generators read (the file
    system); [Ast], [Cfg], [Meta] and [Fn] are the payloads of the objects
    they build; the four graph types are the analyzer's. *)
Class Collaborators : Type := {
  World : Type;
  Ast : Type;
  Cfg : Type;
  Meta : Type;
  Fn : Type;
  ImportGraph : Type;
  AnalysisContext : Type;
  InheritanceGraph : Type;
  LinkingGraph : Type;
  (** [path.resolve] of the Node.js library. *)
  resolve : string -> string;
  (** [SourceGenerator.generate], [ASTGenerator.generate],
      [TargetMapGenerator.generate] and [SolidityCFGFactory.convertAST]:
      each one runs in the outside world and returns or throws. *)
  sourceGenerator : string -> World -> World * (exn + string);
  abstractSyntaxTreeGenerator : string -> World -> World * (exn + Ast);
  targetMapGenerator :
    obj Ast -> World ->
    World * (exn + (gmap string Meta * gmap string (gmap string Fn)));
  controlFlowGraphGenerator : obj Ast -> World -> World * (exn + Cfg);
  (** [ImportGraph.getNodes] *)
  getNodes : ImportGraph -> list string;
  (** The class [Target] (module [./Target]): its instances, its
      constructor with the nine arguments [createTarget] passes, and the
      property [controlFlowGraph] that [getCFG] reads. *)
  Target : Type;
  newTarget :
    string -> string -> string -> obj Ast -> AnalysisContext ->
    gmap string Fn -> obj Cfg -> LinkingGraph -> list string -> Target;
  controlFlowGraph : Target -> obj Cfg
}.

Section State.

Context `{Collaborators}.

(** The fields of the pool.  [_targets] is declared and never assigned by
    the constructor: [None] is JavaScript's [undefined].  The last three
    fields are not fields of the class: [world] is the outside world,
    [next_id] the next free object identity and [trace] the generator
    invocations so far. *)
Record TargetPool : Type := mkPool {
  _targets : option (gmap string (gmap string (obj Target)));
  _sources : gmap string string;
  _abstractSyntaxTrees : gmap string (obj Ast);
  _targetMap : gmap string (obj (gmap string Meta));
  _functionMaps : gmap string (obj (gmap string (gmap string Fn)));
  _controlFlowGraphs : gmap string (obj Cfg);
  world : World;
  next_id : nat;
  trace : list event
}.

Definition set_targets (v : option (gmap string (gmap string (obj Target))))
    (s : TargetPool) : TargetPool :=
  mkPool v (_sources s) (_abstractSyntaxTrees s) (_targetMap s)
         (_functionMaps s) (_controlFlowGraphs s) (world s) (next_id s)
         (trace s).
Definition set_sources (v : gmap string string) (s : TargetPool) : TargetPool :=
  mkPool (_targets s) v (_abstractSyntaxTrees s) (_targetMap s)
         (_functionMaps s) (_controlFlowGraphs s) (world s) (next_id s)
         (trace s).
Definition set_abstractSyntaxTrees (v : gmap string (obj Ast))
    (s : TargetPool) : TargetPool :=
  mkPool (_targets s) (_sources s) v (_targetMap s)
         (_functionMaps s) (_controlFlowGraphs s) (world s) (next_id s)
         (trace s).
Definition set_targetMap (v : gmap string (obj (gmap string Meta)))
    (s : TargetPool) : TargetPool :=
  mkPool (_targets s) (_sources s) (_abstractSyntaxTrees s) v
         (_functionMaps s) (_controlFlowGraphs s) (world s) (next_id s)
         (trace s).
Definition set_functionMaps
    (v : gmap string (obj (gmap string (gmap string Fn))))
    (s : TargetPool) : TargetPool :=
  mkPool (_targets s) (_sources s) (_abstractSyntaxTrees s) (_targetMap s)
         v (_controlFlowGraphs s) (world s) (next_id s) (trace s).
Definition set_controlFlowGraphs (v : gmap string (obj Cfg))
    (s : TargetPool) : TargetPool :=
  mkPool (_targets s) (_sources s) (_abstractSyntaxTrees s) (_targetMap s)
         (_functionMaps s) v (world s) (next_id s) (trace s).
(** A generator was invoked: the world moves on and the call is logged. *)
Definition invoked (e : event) (w : World) (s : TargetPool) : TargetPool :=
  mkPool (_targets s) (_sources s) (_abstractSyntaxTrees s) (_targetMap s)
         (_functionMaps s) (_controlFlowGraphs s) w (next_id s)
         (e :: trace s).
Definition allocated (s : TargetPool) : TargetPool :=
  mkPool (_targets s) (_sources s) (_abstractSyntaxTrees s) (_targetMap s)
         (_functionMaps s) (_controlFlowGraphs s) (world s) (S (next_id s))
         (trace s).

(** ** The monad of the methods *)

Definition M (A : Type) : Type := TargetPool -> TargetPool * (exn + A).

Definition ret {A} (a : A) : M A := fun s => (s, inr a).
Definition throw {A} (e : exn) : M A := fun s => (s, inl e).
Definition bind {A B} (m : M A) (k : A -> M B) : M B :=
  fun s =>
    match m s with
    | (s', inl e) => (s', inl e)
    | (s', inr a) => k a s'
    end.
Definition get {A} (f : TargetPool -> A) : M A := fun s => (s, inr (f s)).
Definition modify (f : TargetPool -> TargetPool) : M unit :=
  fun s => (f s, inr tt).

End State.

Notation "'let*' x := m 'in' k" := (bind m (fun x => k))
  (at level 10, x name, m at level 100, k at level 200).
Notation "m ;;; k" := (bind m (fun _ => k))
  (at level 100, k at level 200, right associativity).

(** The dependency analyzer (module [./dependency/DependencyAnalyzer]) is
    constructed over the pool, so each of its analyses is a computation
    over the pool: it may call the pool's methods and it may throw. *)
Class DependencyAnalyzer `{Collaborators} : Type := {
  analyzeImports : string -> M ImportGraph;
  analyzeContext : ImportGraph -> M AnalysisContext;
  analyzeInheritance : AnalysisContext -> string -> M InheritanceGraph;
  analyzeLinking : ImportGraph -> AnalysisContext -> string -> M LinkingGraph
}.

Section Pool.

Context `{Collaborators}.

(** ** The constructor: five empty maps; [_targets] is left out. *)
Definition constructor (w : World) : TargetPool :=
  mkPool None ∅ ∅ ∅ ∅ ∅ w 0 [].

(** ** Calls into the generators *)

Definition generate_source (p : string) : M string :=
  fun s =>
    let '(w, r) := sourceGenerator p (world s) in
    (invoked (SourceGenerated p) w s, r).

Definition generate_ast (src : string) : M (obj Ast) :=
  fun s =>
    let '(w, r) := abstractSyntaxTreeGenerator src (world s) in
    let s' := invoked (ASTGenerated src) w s in
    match r with
    | inl e => (s', inl e)
    | inr a => (allocated s', inr (Obj (next_id s') a))
    end.

(** The two maps of one result [{ targetMap, functionMap }] carry the
    identity of the generator run that built them. *)
Definition generate_target_map (ast : obj Ast)
    : M (obj (gmap string Meta) * obj (gmap string (gmap string Fn))) :=
  fun s =>
    let '(w, r) := targetMapGenerator ast (world s) in
    let s' := invoked (TargetMapGenerated (oid ast)) w s in
    match r with
    | inl e => (s', inl e)
    | inr (tm, fm) =>
        (allocated s', inr (Obj (next_id s') tm, Obj (next_id s') fm))
    end.

Definition convertAST (ast : obj Ast) : M (obj Cfg) :=
  fun s =>
    let '(w, r) := controlFlowGraphGenerator ast (world s) in
    let s' := invoked (CFGGenerated (oid ast)) w s in
    match r with
    | inl e => (s', inl e)
    | inr g => (allocated s', inr (Obj (next_id s') g))
    end.

(** [new Target(...)]: a new instance on every call. *)
Definition new_Target (t : Target) : M (obj Target) :=
  fun s => (allocated s, inr (Obj (next_id s) t)).

(** Reading a method of [this._targets]: a [TypeError] when the field is
    [undefined]. *)
Definition targets_of (reading : string)
    : M (gmap string (gmap string (obj Target))) :=
  fun s =>
    match _targets s with
    | None => (s, inl (TypeError reading))
    | Some ts => (s, inr ts)
    end.

(** ** The methods *)

Definition getSource (targetPath : string) : M string :=
  let absoluteTargetPath := resolve targetPath in
  let* sources := get _sources in
  match sources !! absoluteTargetPath with
  | Some src => ret src
  | None =>
      let* src := generate_source absoluteTargetPath in
      modify (fun s => set_sources (<[absoluteTargetPath := src]> (_sources s)) s) ;;;
      ret src
  end.

Definition getAST (targetPath : string) : M (obj Ast) :=
  let absoluteTargetPath := resolve targetPath in
  let* trees := get _abstractSyntaxTrees in
  match trees !! absoluteTargetPath with
  | Some ast => ret ast
  | None =>
      let* targetSource := getSource absoluteTargetPath in
      let* targetAST := generate_ast targetSource in
      modify (fun s => set_abstractSyntaxTrees
                         (<[absoluteTargetPath := targetAST]> (_abstractSyntaxTrees s)) s) ;;;
      ret targetAST
  end.

(** The miss branch shared, statement for statement, by [getTargetMap]
    and [getFunctionMap]. *)
Definition fill_maps (absoluteTargetPath : string)
    : M (obj (gmap string Meta)) :=
  let* targetAST := getAST absoluteTargetPath in
  let* maps := generate_target_map targetAST in
  modify (fun s => set_targetMap
                     (<[absoluteTargetPath := fst maps]> (_targetMap s)) s) ;;;
  modify (fun s => set_functionMaps
                     (<[absoluteTargetPath := snd maps]> (_functionMaps s)) s) ;;;
  ret (fst maps).

Definition getTargetMap (targetPath : string) : M (obj (gmap string Meta)) :=
  let absoluteTargetPath := resolve targetPath in
  let* cached := get _targetMap in
  match cached !! absoluteTargetPath with
  | Some tm => ret tm
  | None => fill_maps absoluteTargetPath
  end.

Definition unknown_target (targetName targetPath : string) : string :=
  "Target " ++ targetName ++ " could not be found at " ++ targetPath.

Definition getFunctionMap (targetPath targetName : string)
    : M (gmap string Fn) :=
  let absoluteTargetPath := resolve targetPath in
  let* cached := get _functionMaps in
  (match cached !! absoluteTargetPath with
   | Some _ => ret tt
   | None => fill_maps absoluteTargetPath ;;; ret tt
   end) ;;;
  let* maps := get _functionMaps in
  match maps !! absoluteTargetPath with
  | None => throw (TypeError "has")
  | Some fm =>
      match val fm !! targetName with
      | Some f => ret f
      | None => throw (Error (unknown_target targetName targetPath))
      end
  end.

Definition getCFG (targetPath targetName : string) : M (obj Cfg) :=
  let absoluteTargetPath := resolve targetPath in
  let* targets := targets_of "has" in
  match targets !! absoluteTargetPath ≫= (.!! targetName) with
  | Some target => ret (controlFlowGraph (val target))
  | None =>
      let* targetAST := getAST absoluteTargetPath in
      let* cfg := convertAST targetAST in
      modify (fun s => set_controlFlowGraphs
                         (<[absoluteTargetPath := cfg]> (_controlFlowGraphs s)) s) ;;;
      ret cfg
  end.

Definition createTarget `{!DependencyAnalyzer} (targetPath targetName : string)
    : M (obj Target) :=
  let absoluteTargetPath := resolve targetPath in
  let* src := getSource absoluteTargetPath in
  let* ast := getAST absoluteTargetPath in
  let* fm := getFunctionMap absoluteTargetPath targetName in
  let* cfg := getCFG absoluteTargetPath targetName in
  let* importGraph := analyzeImports targetPath in
  let* ctx := analyzeContext importGraph in
  let* inheritanceGraph := analyzeInheritance ctx targetName in
  let deps := getNodes importGraph in
  let* linking := analyzeLinking importGraph ctx targetName in
  let* target :=
    new_Target (newTarget absoluteTargetPath targetName src ast ctx fm cfg
                         linking deps) in
  let* targets := targets_of "has" in
  (match targets !! targetPath with
   | Some _ => modify (set_targets (Some (<[targetPath := ∅]> targets)))
   | None => ret tt
   end) ;;;
  let* targets' := targets_of "get" in
  match targets' !! targetPath with
  | None => throw (TypeError "set")
  | Some inner =>
      modify (set_targets
                (Some (<[targetPath := <[targetName := target]> inner]> targets'))) ;;;
      ret target
  end.

End Pool.

(** ** The vocabulary of the properties *)

(** What a call returned, if it returned. *)
Definition returned {A : Type} (r : exn + A) : option A :=
  match r with
  | inr a => Some a
  | inl _ => None
  end.

Section Vocabulary.

Context `{Collaborators}.

(** The target map and the function maps of a file are cached together,
    and they are the two halves of one generator result. *)
Definition maps_paired (s : TargetPool) : Prop :=
  forall k,
    match _targetMap s !! k, _functionMaps s !! k with
    | Some tm, Some fm => oid tm = oid fm
    | None, None => True
    | _, _ => False
    end.

(** Every entry of the four per-file caches of [s] is still there, with the
    same value, in [s']. *)
Definition caches_kept (s s' : TargetPool) : Prop :=
  _sources s ⊆ _sources s' /\
  _abstractSyntaxTrees s ⊆ _abstractSyntaxTrees s' /\
  _targetMap s ⊆ _targetMap s' /\
  _functionMaps s ⊆ _functionMaps s'.

(** The six fields of the class hold the same in [s] and [s']. *)
Definition same_fields (s s' : TargetPool) : Prop :=
  _targets s' = _targets s /\
  _sources s' = _sources s /\
  _abstractSyntaxTrees s' = _abstractSyntaxTrees s /\
  _targetMap s' = _targetMap s /\
  _functionMaps s' = _functionMaps s /\
  _controlFlowGraphs s' = _controlFlowGraphs s.

(** The entries of the four per-file caches under the key [q]. *)
Definition entries_at (q : string) (s : TargetPool)
    : option string * option (obj Ast) * option (obj (gmap string Meta)) *
      option (obj (gmap string (gmap string Fn))) :=
  (_sources s !! q, _abstractSyntaxTrees s !! q, _targetMap s !! q,
   _functionMaps s !! q).

(** Every object held by a cache was allocated before [next_id]. *)
Definition ids_allocated (s : TargetPool) : Prop :=
  (forall k a, _abstractSyntaxTrees s !! k = Some a -> oid a < next_id s) /\
  (forall k m, _targetMap s !! k = Some m -> oid m < next_id s) /\
  (forall k m, _functionMaps s !! k = Some m -> oid m < next_id s) /\
  (forall k g, _controlFlowGraphs s !! k = Some g -> oid g < next_id s).

(** The Target filed in [_targets] under a path and a target name. *)
Definition cached_target (p t : string) (s : TargetPool)
    : option (obj Target) :=
  match _targets s with
  | Some ts =>
      match ts !! p with
      | Some inner => inner !! t
      | None => None
      end
  | None => None
  end.

(** The public methods of the pool, as calls. *)
Inductive op : Type :=
  | GetSource (targetPath : string)
  | GetAST (targetPath : string)
  | GetTargetMap (targetPath : string)
  | GetFunctionMap (targetPath targetName : string)
  | GetCFG (targetPath targetName : string)
  | CreateTarget (targetPath targetName : string).

Definition is_createTarget (o : op) : bool :=
  match o with CreateTarget _ _ => true | _ => false end.

(** The pool after a call, whether the call returned or threw. *)
Definition run_op `{!DependencyAnalyzer} (o : op) (s : TargetPool)
    : TargetPool :=
  match o with
  | GetSource p => fst (getSource p s)
  | GetAST p => fst (getAST p s)
  | GetTargetMap p => fst (getTargetMap p s)
  | GetFunctionMap p t => fst (getFunctionMap p t s)
  | GetCFG p t => fst (getCFG p t s)
  | CreateTarget p t => fst (createTarget p t s)
  end.

Definition run_ops `{!DependencyAnalyzer} (ops : list op) (s : TargetPool)
    : TargetPool :=
  foldl (fun s o => run_op o s) s ops.

(** A computation that treats the pool as the getters do: it leaves
    [_targets] and the graph cache alone, keeps every entry of the four
    per-file caches, and keeps the generated maps paired. *)
Definition keeps_pool {A : Type} (m : M A) : Prop :=
  forall s,
    _targets (fst (m s)) = _targets s /\
    _controlFlowGraphs (fst (m s)) = _controlFlowGraphs s /\
    caches_kept s (fst (m s)) /\
    (maps_paired s -> maps_paired (fst (m s))).

(** A dependency analyzer whose four analyses treat the pool so. *)
Definition analyzer_keeps_pool `{!DependencyAnalyzer} : Prop :=
  (forall p, keeps_pool (analyzeImports p)) /\
  (forall g, keeps_pool (analyzeContext g)) /\
  (forall c t, keeps_pool (analyzeInheritance c t)) /\
  (forall g c t, keeps_pool (analyzeLinking g c t)).

End Vocabulary.

(** ** A concrete pool

    A small world to run the methods in: a disk with three files, a parser
    that rejects one of them, a contract per file named after its text. *)

Module Demo.

Definition disk : gmap string string :=
  {[ "/cwd/a.sol" := "A"; "/cwd/b.sol" := "B"; "/cwd/bad.sol" := "???" ]}.

(** Absolute paths are kept, relative ones are taken from [/cwd]. *)
Definition resolve_path (p : string) : string :=
  match p with
  | String "/"%char _ => p
  | _ => "/cwd/" ++ p
  end.

Definition read (p : string) (w : gmap string string)
    : gmap string string * (exn + string) :=
  match w !! p with
  | Some src => (w, inr src)
  | None => (w, inl (Error ("ENOENT " ++ p)))
  end.

Definition parse (src : string) (w : gmap string string)
    : gmap string string * (exn + string) :=
  if decide (src = "???") then (w, inl (Error "ParserError")) else (w, inr src).

Definition contracts (ast : obj string) (w : gmap string string)
    : gmap string string *
      (exn + (gmap string nat * gmap string (gmap string nat))) :=
  (w, inr ({[ val ast := 0 ]}, {[ val ast := {[ "f" := 1 ]} ]})).

Definition graph (ast : obj string) (w : gmap string string)
    : gmap string string * (exn + nat) :=
  (w, inr (String.length (val ast))).

Record target : Type := mk_target {
  t_path : string;
  t_name : string;
  t_source : string;
  t_ast : obj string;
  t_functions : gmap string nat;
  t_cfg : obj nat;
  t_dependencies : list string
}.

#[export] Instance collaborators : Collaborators := {|
  World := gmap string string;
  Ast := string;
  Cfg := nat;
  Meta := nat;
  Fn := nat;
  ImportGraph := list string;
  AnalysisContext := unit;
  InheritanceGraph := unit;
  LinkingGraph := unit;
  resolve := resolve_path;
  sourceGenerator := read;
  abstractSyntaxTreeGenerator := parse;
  targetMapGenerator := contracts;
  controlFlowGraphGenerator := graph;
  getNodes := fun g => g;
  Target := target;
  newTarget := fun p n src ast _ fm cfg _ deps => mk_target p n src ast fm cfg deps;
  controlFlowGraph := t_cfg
|}.

#[export] Instance analyzer : DependencyAnalyzer := {|
  analyzeImports := fun p => ret [p];
  analyzeContext := fun _ => ret tt;
  analyzeInheritance := fun _ _ => ret tt;
  analyzeLinking := fun _ _ _ => ret tt
|}.

(** The pool as the constructor leaves it. *)
Definition fresh : TargetPool := constructor disk.

(** The same pool once [_targets] has been assigned an empty map. *)
Definition opened : TargetPool := set_targets (Some ∅) fresh.

(** A pool whose [_targets] lists the file [/cwd/a.sol], with one target
    [B] assembled earlier. *)
Definition earlier : obj target :=
  Obj 7 (mk_target "/cwd/a.sol" "B" "A" (Obj 5 "A") ∅ (Obj 6 1) []).
Definition listed : TargetPool :=
  set_targets (Some {[ "/cwd/a.sol" := {[ "B" := earlier ]} ]}) fresh.

(** A pool whose [_targets] lists the file under its relative path. *)
Definition listed_relative : TargetPool :=
  set_targets (Some {[ "a.sol" := ∅ ]}) fresh.

End Demo.

(** ** The launcher's use of the pool

    [SolidityLauncher.run] builds one pool with the constructor, loads the
    source of every included and excluded file through it, and then walks
    the targets of every included file; [testTarget] asks the pool for the
    graph and the syntax tree of the target it searches. *)

(** One entry of the launcher's list [targets]. *)
Record TargetFile : Type := mkTargetFile {
  source : string;
  canonicalPath : string;
  relativePath : string
}.

Section Launcher.

Context `{Collaborators}.

(** [path.basename] of the Node.js library. *)
Variable basename : string -> string.

(** One of the two loops [for (const _path of ... .keys())]: each pushes
    onto [targets]. *)
Fixpoint push_sources (paths : list string) (targets : list TargetFile)
    : M (list TargetFile) :=
  match paths with
  | [] => ret targets
  | _path :: rest =>
      let* src := getSource _path in
      push_sources rest (targets ++ [mkTargetFile src _path (basename _path)])
  end.

(** The lists [targets] and [skipped] as the two loops leave them: both
    loops push onto [targets], nothing is pushed onto [skipped]. *)
Definition load_target_files (included excluded : list string)
    : M (list TargetFile * list TargetFile) :=
  let skipped := [] in
  let* targets := push_sources included [] in
  let* targets := push_sources excluded targets in
  ret (targets, skipped).

(** The two checks a target of an included file passes before it is
    tested: [includedTargets] is the entry of the file in [included],
    [excludedTargets] its entry in [excluded], if it has one. *)
Definition is_tested (includedTargets : list string)
    (excludedTargets : option (list string)) (target : string) : bool :=
  if negb (bool_decide ("*" ∈ includedTargets)) &&
     negb (bool_decide (target ∈ includedTargets))
  then false
  else
    match excludedTargets with
    | Some excludedTargets =>
        if bool_decide ("*" ∈ excludedTargets) ||
           bool_decide (target ∈ excludedTargets)
        then false
        else true
    | None => true
    end.

(** The calls [testTarget] makes on the pool, in their order: the graph
    first, then the syntax tree and the graph again. *)
Definition testTarget (targetPath target : string) : M (obj Ast * obj Cfg) :=
  getCFG targetPath target ;;;
  let* ast := getAST targetPath in
  let* cfg := getCFG targetPath target in
  ret (ast, cfg).

End Launcher.

(** ** The coverage statistics of the launcher *)

(** One element of [ExecutionResult.getTraces()]. *)
Record TraceElement : Type := mkTraceElement {
  tr_type : string;
  tr_line : Z;
  tr_locationIdx : Z;
  tr_hits : Z;
  tr_contractPath : string
}.

(** [hits > 0] *)
Definition hit (element : TraceElement) : bool := (0 <? tr_hits element)%Z.

(** One objective of the archive: the name of its subject and the traces
    of the execution result of its encoding. *)
Record Objective : Type := mkObjective {
  subject_name : string;
  traces : list TraceElement
}.

(** The variables the two collecting functions record. *)
Inductive RuntimeVariable : Type :=
  | COVERED_BRANCHES | TOTAL_BRANCHES | BRANCH_COVERAGE
  | COVERED_LINES | TOTAL_LINES | LINE_COVERAGE
  | COVERED_FUNCTIONS | TOTAL_FUNCTIONS | FUNCTION_COVERAGE
  | COVERED_PROBES | TOTAL_PROBES | PROBE_COVERAGE.

(** A recorded value: a count, or the quotient of two counts. *)
Inductive number : Type :=
  | Count (n : nat)
  | Quotient (n d : nat).

(** [String.prototype.includes] *)
Definition includes (s sub : string) : bool :=
  match String.index 0 sub s with
  | Some _ => true
  | None => false
  end.

(** The last element of [s.split("/")]. *)
Fixpoint last_segment_from (acc s : string) : string :=
  match s with
  | EmptyString => acc
  | String c rest =>
      if Ascii.eqb c "/"%char then last_segment_from "" rest
      else last_segment_from (acc ++ String c "") rest
  end.
Definition last_segment (s : string) : string := last_segment_from "" s.

Section Coverage.

(** The conversion of a number to a string. *)
Variable show : Z -> string.

(** The filter by contract: the file name of the trace includes the name
    of the subject followed by [.sol]. *)
Definition of_contract (o : Objective) (element : TraceElement) : bool :=
  includes (last_segment (tr_contractPath element)) (subject_name o ++ ".sol").

Definition trace_key (current : TraceElement) : string :=
  tr_type current ++ "_" ++ show (tr_line current) ++ "_" ++
  show (tr_locationIdx current).

(** The traces of an objective that the [forEach] visits. *)
Definition visited (objectiveType : string) (o : Objective)
    : list TraceElement :=
  List.filter (of_contract o)
    (List.filter (fun element => includes (tr_type element) objectiveType)
       (traces o)).

(** The body of the [forEach], on the sets [total] and [covered]. *)
Definition visit (sets : gset string * gset string) (current : TraceElement)
    : gset string * gset string :=
  let total := fst sets ∪ {[ trace_key current ]} in
  let covered :=
    if (0 <? tr_hits current)%Z then snd sets ∪ {[ trace_key current ]}
    else snd sets in
  (total, covered).

(** The loop over the objectives of the archive. *)
Definition collect (objectiveType : string) (archive : list Objective)
    : gset string * gset string :=
  foldl (fun sets o => foldl visit sets (visited objectiveType o)) (∅, ∅) archive.

Definition coverage (covered total : nat) : number :=
  if (0 <? total)%nat then Quotient covered total else Count 0.

(** The calls of [recordVariable] made by [collectCoverageData], in their
    order. *)
Definition collectCoverageData (archive : list Objective)
    (objectiveType : string) : list (RuntimeVariable * number) :=
  let sets := collect objectiveType archive in
  let total := size (fst sets) in
  let covered := size (snd sets) in
  if decide (objectiveType = "branch") then
    [(COVERED_BRANCHES, Count covered); (TOTAL_BRANCHES, Count total);
     (BRANCH_COVERAGE, coverage covered total)]
  else if decide (objectiveType = "statement") then
    [(COVERED_LINES, Count covered); (TOTAL_LINES, Count total);
     (LINE_COVERAGE, coverage covered total)]
  else if decide (objectiveType = "function") then
    [(COVERED_FUNCTIONS, Count covered); (TOTAL_FUNCTIONS, Count total);
     (FUNCTION_COVERAGE, coverage covered total)]
  else [].

(** The probes of one objective: the pre-traces that were hit and the
    post-traces. *)
Definition preTraces (o : Objective) : list TraceElement :=
  List.filter
    (fun element => includes (tr_type element) "probePre" &&
                    (0 <? tr_hits element)%Z)
    (List.filter (of_contract o) (traces o)).
Definition postTraces (o : Objective) : list TraceElement :=
  List.filter (fun element => includes (tr_type element) "probePost")
    (List.filter (of_contract o) (traces o)).

Definition probe_key (postTrace : TraceElement) : string :=
  if (0 <? tr_hits postTrace)%Z then show (tr_line postTrace) ++ "_true"
  else show (tr_line postTrace) ++ "_false".

(** The two nested [forEach] over the probes of one objective. *)
Definition visit_probes (o : Objective) (covered : gset string)
    : gset string :=
  foldl
    (fun covered trace =>
       foldl (fun covered postTrace => covered ∪ {[ probe_key postTrace ]})
         covered
         (List.filter (fun postTrace => (tr_line postTrace =? tr_line trace)%Z)
            (postTraces o)))
    covered (preTraces o).

(** The loop over the objectives: [total] is assigned, [covered] grows. *)
Definition collect_probes (archive : list Objective) : nat * gset string :=
  foldl
    (fun state o =>
       ((length (postTraces o) * 2)%nat, visit_probes o (snd state)))
    (0, ∅) archive.

(** The calls of [recordVariable] made by [collectProbeCoverageData]. *)
Definition collectProbeCoverageData (archive : list Objective)
    : list (RuntimeVariable * number) :=
  let state := collect_probes archive in
  let total := fst state in
  let covered := size (snd state) in
  [(COVERED_PROBES, Count covered); (TOTAL_PROBES, Count total);
   (PROBE_COVERAGE, coverage covered total)].

End Coverage.

(** * Properties of the pool *)

(** Unfolding the methods down to the generator calls, and splitting on
    every cache lookup and every generator result. *)
Ltac unfold_pool :=
  unfold createTarget, getCFG, getFunctionMap, getTargetMap, fill_maps, getAST,
    getSource, generate_source, generate_ast, generate_target_map, convertAST,
    new_Target, targets_of, bind, ret, throw, get, modify in *.

Ltac crunch :=
  repeat (simpl in *; subst;
    match goal with
    | H : (_, _) = (_, _) |- _ => inversion H; clear H
    | H : inl _ = inl _ |- _ => inversion H; clear H
    | H : inr _ = inr _ |- _ => inversion H; clear H
    | H : inl _ = inr _ |- _ => discriminate H
    | H : inr _ = inl _ |- _ => discriminate H
    | H : context [match ?x with _ => _ end] |- _ => destruct x eqn:?
    | |- context [match ?x with _ => _ end] => destruct x eqn:?
    end);
  simpl in *; subst.

Ltac conj := repeat match goal with |- _ /\ _ => split end.

Ltac kept :=
  conj; simpl;
  try first
    [ reflexivity
    | assumption
    | apply insert_subseteq; assumption
    | lia
    | congruence ].

Section PoolFacts.
Context `{Collaborators}.

Lemma getSource_hit p s src :
  _sources s !! resolve p = Some src -> getSource p s = (s, inr src).
Proof. intros E. unfold_pool. simpl. rewrite E. reflexivity. Qed.

Lemma getAST_hit p s a :
  _abstractSyntaxTrees s !! resolve p = Some a -> getAST p s = (s, inr a).
Proof. intros E. unfold_pool. simpl. rewrite E. reflexivity. Qed.

Lemma getTargetMap_hit p s tm :
  _targetMap s !! resolve p = Some tm -> getTargetMap p s = (s, inr tm).
Proof. intros E. unfold_pool. simpl. rewrite E. reflexivity. Qed.

Lemma getFunctionMap_hit p t s fm :
  _functionMaps s !! resolve p = Some fm ->
  getFunctionMap p t s =
    (s, match val fm !! t with
        | Some f => inr f
        | None => inl (Error (unknown_target t p))
        end).
Proof.
  intros E. unfold_pool. simpl. rewrite E. simpl. rewrite E.
  destruct (val fm !! t); reflexivity.
Qed.

(** C1.  After a call of [getAST] that returned, a second call for the
    same path returns the same instance and leaves the pool, its trace of
    generator invocations included, as it is; the first call invoked the
    source generator and the syntax-tree generator at most once each. *)
Theorem getAST_twice_same_instance p s s1 a :
  getAST p s = (s1, inr a) ->
  getAST p s1 = (s1, inr a) /\
  calls is_source_event (trace s1) <= calls is_source_event (trace s) + 1 /\
  calls is_ast_event (trace s1) <= calls is_ast_event (trace s) + 1.
Proof.
  intros E. split.
  - apply getAST_hit. unfold_pool. crunch; simplify_map_eq; done.
  - unfold_pool. unfold calls. crunch; lia.
Qed.


Lemma paired_target_None s k :
  maps_paired s -> _targetMap s !! k = None -> _functionMaps s !! k = None.
Proof.
  intros Hp E. specialize (Hp k). rewrite E in Hp.
  destruct (_functionMaps s !! k); [contradiction | reflexivity].
Qed.

Lemma paired_function_None s k :
  maps_paired s -> _functionMaps s !! k = None -> _targetMap s !! k = None.
Proof.
  intros Hp E. specialize (Hp k). rewrite E in Hp.
  destruct (_targetMap s !! k); [contradiction | reflexivity].
Qed.

Lemma paired_insert s s' k tm fm :
  maps_paired s ->
  oid tm = oid fm ->
  _targetMap s' = <[k := tm]> (_targetMap s) ->
  _functionMaps s' = <[k := fm]> (_functionMaps s) ->
  maps_paired s'.
Proof.
  intros Hp Ho Et Ef k'. rewrite Et, Ef.
  destruct (decide (k' = k)) as [->|Hne].
  - rewrite !lookup_insert_eq. exact Ho.
  - rewrite !lookup_insert_ne by congruence. apply Hp.
Qed.

Lemma paired_same s s' :
  maps_paired s ->
  _targetMap s' = _targetMap s ->
  _functionMaps s' = _functionMaps s ->
  maps_paired s'.
Proof. intros Hp Et Ef k. rewrite Et, Ef. apply Hp. Qed.

Lemma getSource_frame p s s1 r :
  getSource p s = (s1, r) ->
  _targets s1 = _targets s /\
  _abstractSyntaxTrees s1 = _abstractSyntaxTrees s /\
  _targetMap s1 = _targetMap s /\
  _functionMaps s1 = _functionMaps s /\
  _controlFlowGraphs s1 = _controlFlowGraphs s /\
  next_id s1 = next_id s /\
  _sources s ⊆ _sources s1.
Proof. intros E. unfold_pool. crunch; kept. Qed.

Lemma getAST_frame p s s1 r :
  getAST p s = (s1, r) ->
  _targets s1 = _targets s /\
  _targetMap s1 = _targetMap s /\
  _functionMaps s1 = _functionMaps s /\
  _controlFlowGraphs s1 = _controlFlowGraphs s /\
  next_id s <= next_id s1 /\
  _sources s ⊆ _sources s1 /\
  _abstractSyntaxTrees s ⊆ _abstractSyntaxTrees s1.
Proof. intros E. unfold_pool. crunch; kept. Qed.

Lemma fill_maps_frame k s s1 r :
  fill_maps k s = (s1, r) ->
  _targets s1 = _targets s /\
  _controlFlowGraphs s1 = _controlFlowGraphs s /\
  next_id s <= next_id s1 /\
  _sources s ⊆ _sources s1 /\
  _abstractSyntaxTrees s ⊆ _abstractSyntaxTrees s1 /\
  match r with
  | inr tm =>
      exists fm, oid tm = oid fm /\
        _targetMap s1 = <[k := tm]> (_targetMap s) /\
        _functionMaps s1 = <[k := fm]> (_functionMaps s)
  | inl _ =>
      _targetMap s1 = _targetMap s /\ _functionMaps s1 = _functionMaps s
  end.
Proof.
  intros E. unfold fill_maps, bind in E.
  destruct (getAST k s) as [s2 [e|ast]] eqn:Ea;
    apply getAST_frame in Ea as (Ht & Htm & Hfm & Hc & Hn & Hs & Ha).
  - inversion E; subst. kept.
  - unfold_pool. crunch; rewrite ?Htm, ?Hfm; kept; eexists; kept; reflexivity.
Qed.


Lemma getTargetMap_frame p s s1 r :
  maps_paired s ->
  getTargetMap p s = (s1, r) ->
  _targets s1 = _targets s /\
  _controlFlowGraphs s1 = _controlFlowGraphs s /\
  next_id s <= next_id s1 /\
  caches_kept s s1 /\
  maps_paired s1.
Proof.
  intros Hp E. unfold getTargetMap, bind, get in E. simpl in E.
  destruct (_targetMap s !! resolve p) as [tm|] eqn:Et.
  - inversion E; subst. unfold caches_kept. kept.
  - pose proof (paired_target_None _ _ Hp Et) as Ef.
    apply fill_maps_frame in E as (Ht & Hc & Hn & Hs & Ha & Hr).
    destruct r as [e|tm].
    + destruct Hr as [Htm Hfm]. unfold caches_kept. rewrite Htm, Hfm.
      kept. eapply paired_same; eauto.
    + destruct Hr as (fm & Ho & Htm & Hfm). unfold caches_kept.
      rewrite Htm, Hfm. kept. eapply paired_insert; eauto.
Qed.

Lemma getFunctionMap_frame p t s s1 r :
  maps_paired s ->
  getFunctionMap p t s = (s1, r) ->
  _targets s1 = _targets s /\
  _controlFlowGraphs s1 = _controlFlowGraphs s /\
  next_id s <= next_id s1 /\
  caches_kept s s1 /\
  maps_paired s1.
Proof.
  intros Hp E.
  destruct (_functionMaps s !! resolve p) as [fm|] eqn:Ef.
  - rewrite (getFunctionMap_hit _ _ _ _ Ef) in E. inversion E; subst.
    unfold caches_kept. kept.
  - pose proof (paired_function_None _ _ Hp Ef) as Et.
    unfold getFunctionMap, bind, get in E. simpl in E. rewrite Ef in E.
    unfold bind in E.
    destruct (fill_maps (resolve p) s) as [s2 [e|tm]] eqn:Efill;
      apply fill_maps_frame in Efill as (Ht & Hc & Hn & Hs & Ha & Hr).
    + inversion E; subst. destruct Hr as [Htm Hfm].
      unfold caches_kept. rewrite Htm, Hfm. kept. eapply paired_same; eauto.
    + destruct Hr as (fm & Ho & Htm & Hfm).
      assert (s1 = s2) as ->.
      { unfold ret, throw in E. simpl in E.
        destruct (_functionMaps s2 !! resolve p) as [fm'|];
          [destruct (val fm' !! t)|]; inversion E; reflexivity. }
      unfold caches_kept. rewrite Htm, Hfm. kept. eapply paired_insert; eauto.
Qed.

Lemma getCFG_undefined p t s :
  _targets s = None -> getCFG p t s = (s, inl (TypeError "has")).
Proof. intros E. unfold_pool. simpl. rewrite E. reflexivity. Qed.

Lemma getCFG_embedded p t s ts inner target :
  _targets s = Some ts ->
  ts !! resolve p = Some inner ->
  inner !! t = Some target ->
  getCFG p t s = (s, inr (controlFlowGraph (val target))).
Proof.
  intros E1 E2 E3. unfold_pool. simpl. rewrite E1. simpl. rewrite E2. simpl.
  rewrite E3. reflexivity.
Qed.

Lemma getCFG_frame p t s s1 r :
  getCFG p t s = (s1, r) ->
  _targets s1 = _targets s /\
  _targetMap s1 = _targetMap s /\
  _functionMaps s1 = _functionMaps s /\
  next_id s <= next_id s1 /\
  _sources s ⊆ _sources s1 /\
  _abstractSyntaxTrees s ⊆ _abstractSyntaxTrees s1.
Proof.
  intros E. unfold getCFG, bind, targets_of in E.
  destruct (_targets s) as [ts|] eqn:Ets; [|inversion E; subst; kept].
  destruct (ts !! resolve p ≫= (.!! t)) as [target|].
  { inversion E; subst. kept. }
  destruct (getAST (resolve p) s) as [s2 [e|ast]] eqn:Ea;
    apply getAST_frame in Ea as (Ht & Htm & Hfm & Hc & Hn & Hs & Ha).
  - inversion E; subst. kept.
  - unfold_pool. crunch; kept.
Qed.


Lemma caches_kept_refl s : caches_kept s s.
Proof. unfold caches_kept. kept. Qed.

Lemma caches_kept_trans s1 s2 s3 :
  caches_kept s1 s2 -> caches_kept s2 s3 -> caches_kept s1 s3.
Proof.
  intros (A1 & A2 & A3 & A4) (B1 & B2 & B3 & B4).
  repeat split; etrans; eassumption.
Qed.

Lemma getSource_kept p s s1 r :
  maps_paired s ->
  getSource p s = (s1, r) ->
  _targets s1 = _targets s /\
  _controlFlowGraphs s1 = _controlFlowGraphs s /\
  next_id s <= next_id s1 /\
  caches_kept s s1 /\
  maps_paired s1.
Proof.
  intros Hp E. apply getSource_frame in E as (Ht & Ha & Htm & Hfm & Hc & Hn & Hs).
  unfold caches_kept. rewrite Ha, Htm, Hfm. kept. eapply paired_same; eauto.
Qed.

Lemma getAST_kept p s s1 r :
  maps_paired s ->
  getAST p s = (s1, r) ->
  _targets s1 = _targets s /\
  _controlFlowGraphs s1 = _controlFlowGraphs s /\
  next_id s <= next_id s1 /\
  caches_kept s s1 /\
  maps_paired s1.
Proof.
  intros Hp E. apply getAST_frame in E as (Ht & Htm & Hfm & Hc & Hn & Hs & Ha).
  unfold caches_kept. rewrite Htm, Hfm. kept. eapply paired_same; eauto.
Qed.

Lemma getCFG_kept p t s s1 r :
  maps_paired s ->
  getCFG p t s = (s1, r) ->
  _targets s1 = _targets s /\
  next_id s <= next_id s1 /\
  caches_kept s s1 /\
  maps_paired s1.
Proof.
  intros Hp E. apply getCFG_frame in E as (Ht & Htm & Hfm & Hn & Hs & Ha).
  unfold caches_kept. rewrite Htm, Hfm. kept. eapply paired_same; eauto.
Qed.

Lemma append_nil_r (x : string) : x ++ "" = x.
Proof.
  induction x as [|c x IH]; [reflexivity|].
  change (String c (x ++ "") = String c x). rewrite IH. reflexivity.
Qed.

Lemma append_assoc (x y z : string) : (x ++ y) ++ z = x ++ y ++ z.
Proof.
  induction x as [|c x IH]; [reflexivity|].
  change (String c ((x ++ y) ++ z) = String c (x ++ y ++ z)).
  rewrite IH. reflexivity.
Qed.

Lemma unknown_target_names t p :
  occurs_in t (unknown_target t p) /\ occurs_in p (unknown_target t p).
Proof.
  split.
  - exists "Target ", (" could not be found at " ++ p). reflexivity.
  - exists ("Target " ++ t ++ " could not be found at "), "".
    unfold unknown_target. rewrite append_nil_r, !append_assoc. reflexivity.
Qed.

(** What a call of [getFunctionMap] does to the function maps of its file:
    it returns from the entry it finds or stores. *)
Lemma getFunctionMap_result p t s s1 r :
  getFunctionMap p t s = (s1, r) ->
  match _functionMaps s1 !! resolve p with
  | Some fm =>
      r = match val fm !! t with
          | Some f => inr f
          | None => inl (Error (unknown_target t p))
          end
  | None => exists e, r = inl e
  end /\
  (is_Some (_functionMaps s !! resolve p) -> s1 = s).
Proof.
  intros E.
  destruct (_functionMaps s !! resolve p) as [fm|] eqn:Ef.
  - rewrite (getFunctionMap_hit _ _ _ _ Ef) in E. inversion E; subst.
    rewrite Ef. auto.
  - split; [|intros [? ?]; discriminate].
    unfold getFunctionMap, bind, get in E. simpl in E. rewrite Ef in E.
    unfold bind in E.
    destruct (fill_maps (resolve p) s) as [s2 [e|tm]] eqn:Efill;
      apply fill_maps_frame in Efill as (Ht & Hc & Hn & Hs & Ha & Hr).
    + inversion E; subst. destruct Hr as [Htm Hfm]. rewrite Hfm, Ef. eauto.
    + destruct Hr as (fm & Ho & Htm & Hfm).
      unfold ret, throw in E. simpl in E.
      rewrite Hfm, lookup_insert_eq in E.
      destruct (val fm !! t) eqn:Et; inversion E; subst;
        rewrite Hfm, lookup_insert_eq, Et; reflexivity.
Qed.



(** C10.  For a canonical path [p] and any other key [q], the four
    getters called on [p] leave the entries of the four per-file caches
    under [q] as they were. *)
Theorem getters_leave_other_paths p q t s :
  resolve p = p ->
  p <> q ->
  entries_at q (fst (getSource p s)) = entries_at q s /\
  entries_at q (fst (getAST p s)) = entries_at q s /\
  entries_at q (fst (getTargetMap p s)) = entries_at q s /\
  entries_at q (fst (getFunctionMap p t s)) = entries_at q s.
Proof.
  intros Hres Hne. unfold entries_at. unfold_pool. rewrite !Hres.
  conj; crunch; rewrite ?lookup_insert_ne by assumption; reflexivity.
Qed.

Lemma getSource_miss_invokes p s :
  _sources s !! resolve p = None ->
  trace (fst (getSource p s)) = SourceGenerated (resolve p) :: trace s.
Proof. intros E. unfold_pool. simpl. rewrite E. crunch; reflexivity. Qed.

Lemma getAST_miss_invokes p s :
  _abstractSyntaxTrees s !! resolve p = None ->
  length (trace s) < length (trace (fst (getAST p s))).
Proof. intros E. unfold_pool. simpl. rewrite E. crunch; lia. Qed.




Section WithAnalyzer.
Context `{!DependencyAnalyzer}.

Lemma createTarget_undefined p t s :
  _targets s = None ->
  maps_paired s ->
  exists s1 e,
    createTarget p t s = (s1, inl e) /\
    _targets s1 = None /\
    _controlFlowGraphs s1 = _controlFlowGraphs s /\
    caches_kept s s1 /\
    maps_paired s1.
Proof.
  intros Hu Hp. unfold createTarget, bind.
  destruct (getSource (resolve p) s) as [s1 [e|src]] eqn:E1;
    apply getSource_kept in E1 as (Ht1 & Hc1 & _ & Hk1 & Hp1); try assumption.
  { exists s1, e. kept. }
  destruct (getAST (resolve p) s1) as [s2 [e|ast]] eqn:E2;
    apply getAST_kept in E2 as (Ht2 & Hc2 & _ & Hk2 & Hp2); try assumption.
  { exists s2, e. kept; try congruence. eapply caches_kept_trans; eauto. }
  destruct (getFunctionMap (resolve p) t s2) as [s3 [e|fm]] eqn:E3;
    apply getFunctionMap_frame in E3 as (Ht3 & Hc3 & _ & Hk3 & Hp3);
    try assumption.
  { exists s3, e. kept; try congruence.
    eauto using caches_kept_trans. }
  rewrite getCFG_undefined by congruence.
  exists s3, (TypeError "has"). kept; try congruence.
  eauto using caches_kept_trans.
Qed.

Lemma run_op_getter o s :
  maps_paired s ->
  is_createTarget o = false ->
  _targets (run_op o s) = _targets s /\
  caches_kept s (run_op o s) /\
  maps_paired (run_op o s).
Proof.
  intros Hp Ho. destruct o as [p|p|p|p t|p t|p t]; simpl in *; try discriminate.
  - destruct (getSource p s) as [s1 r] eqn:E.
    apply getSource_kept in E; simpl; tauto.
  - destruct (getAST p s) as [s1 r] eqn:E.
    apply getAST_kept in E; simpl; tauto.
  - destruct (getTargetMap p s) as [s1 r] eqn:E.
    apply getTargetMap_frame in E; simpl; tauto.
  - destruct (getFunctionMap p t s) as [s1 r] eqn:E.
    apply getFunctionMap_frame in E; simpl; tauto.
  - destruct (getCFG p t s) as [s1 r] eqn:E.
    apply getCFG_kept in E; simpl; tauto.
Qed.

Lemma run_op_undefined o s :
  _targets s = None ->
  maps_paired s ->
  _targets (run_op o s) = None /\
  _controlFlowGraphs (run_op o s) = _controlFlowGraphs s /\
  caches_kept s (run_op o s) /\
  maps_paired (run_op o s).
Proof.
  intros Hu Hp. destruct (is_createTarget o) eqn:Ho.
  - destruct o; try discriminate. simpl.
    destruct (createTarget_undefined targetPath targetName s Hu Hp)
      as (s1 & e & E & ?). rewrite E. simpl. tauto.
  - destruct (run_op_getter o s Hp Ho) as (Ht & Hk & Hp').
    conj; try assumption; try congruence.
    destruct o as [p|p|p|p t|p t|p t]; simpl in *; try discriminate.
    + destruct (getSource p s) as [s1 r] eqn:E.
      apply getSource_frame in E. simpl. tauto.
    + destruct (getAST p s) as [s1 r] eqn:E.
      apply getAST_frame in E. simpl. tauto.
    + destruct (getTargetMap p s) as [s1 r] eqn:E.
      apply getTargetMap_frame in E; simpl; tauto.
    + destruct (getFunctionMap p t s) as [s1 r] eqn:E.
      apply getFunctionMap_frame in E; simpl; tauto.
    + rewrite getCFG_undefined by assumption. reflexivity.
Qed.

Lemma constructor_paired w : maps_paired (constructor w).
Proof. intros k. simpl. rewrite !lookup_empty. exact I. Qed.

Lemma run_ops_undefined ops s :
  _targets s = None ->
  maps_paired s ->
  _targets (run_ops ops s) = None /\
  _controlFlowGraphs (run_ops ops s) = _controlFlowGraphs s /\
  caches_kept s (run_ops ops s) /\
  maps_paired (run_ops ops s).
Proof.
  revert s. induction ops as [|o ops IH]; intros s Hu Hp; simpl.
  - auto using caches_kept_refl.
  - destruct (run_op_undefined o s Hu Hp) as (Hu1 & Hc1 & Hk1 & Hp1).
    destruct (IH _ Hu1 Hp1) as (Hu2 & Hc2 & Hk2 & Hp2).
    conj; try assumption; try congruence.
    eauto using caches_kept_trans.
Qed.

Lemma run_ops_getters ops s :
  maps_paired s ->
  forallb (fun o => negb (is_createTarget o)) ops = true ->
  _targets (run_ops ops s) = _targets s /\
  caches_kept s (run_ops ops s) /\
  maps_paired (run_ops ops s).
Proof.
  revert s. induction ops as [|o ops IH]; intros s Hp Hg; simpl.
  - auto using caches_kept_refl.
  - simpl in Hg. apply andb_prop in Hg as [Ho Hg].
    apply negb_true_iff in Ho.
    destruct (run_op_getter o s Hp Ho) as (Ht1 & Hk1 & Hp1).
    destruct (IH _ Hp1 Hg) as (Ht2 & Hk2 & Hp2).
    conj; try assumption; try congruence.
    eauto using caches_kept_trans.
Qed.



(** C8.  On every pool reached from the constructor, by whatever calls,
    [_targets] is still [undefined]: [getCFG] throws the [TypeError] of
    reading [has] from it and leaves the pool as it was, and [createTarget]
    throws too, never reaching its [return]. *)
Theorem fresh_pool_never_reaches_targets w ops p t :
  let s := run_ops ops (constructor w) in
  _targets s = None /\
  getCFG p t s = (s, inl (TypeError "has")) /\
  exists s1 e, createTarget p t s = (s1, inl e) /\ _targets s1 = None.
Proof.
  simpl.
  destruct (run_ops_undefined ops (constructor w) eq_refl (constructor_paired w))
    as (Hu & _ & _ & Hp).
  split; [assumption|]. split; [apply getCFG_undefined; assumption|].
  destruct (createTarget_undefined p t _ Hu Hp) as (s1 & e & E & Hu1 & _).
  eauto.
Qed.

End WithAnalyzer.

End PoolFacts.

(** * Further properties of the pool *)

Section MorePoolFacts.
Context `{Collaborators}.

(** X1.  After a call of [getSource] that returned, the source is cached
    under the resolved path, a second call returns it and leaves the pool
    as it is, and the first call ran the source generator at most once. *)
Theorem getSource_twice_same_source p s s1 src :
  getSource p s = (s1, inr src) ->
  getSource p s1 = (s1, inr src) /\
  _sources s1 !! resolve p = Some src /\
  calls is_source_event (trace s1) <= calls is_source_event (trace s) + 1.
Proof.
  intros E.
  assert (_sources s1 !! resolve p = Some src) as Hs.
  { unfold_pool. crunch; simplify_map_eq; done. }
  conj; [apply getSource_hit; assumption | assumption |].
  unfold_pool. unfold calls. crunch; lia.
Qed.

(** X2.  After a call of [getTargetMap] that returned, the map is cached
    under the resolved path, a second call returns the same instance and
    leaves the pool as it is, and the first call ran the target-map
    generator at most once. *)
Theorem getTargetMap_twice_same_instance p s s1 tm :
  getTargetMap p s = (s1, inr tm) ->
  getTargetMap p s1 = (s1, inr tm) /\
  _targetMap s1 !! resolve p = Some tm /\
  calls is_target_map_event (trace s1)
    <= calls is_target_map_event (trace s) + 1.
Proof.
  intros E.
  assert (_targetMap s1 !! resolve p = Some tm) as Hs.
  { unfold_pool. crunch; simplify_map_eq; done. }
  conj; [apply getTargetMap_hit; assumption | assumption |].
  unfold_pool. unfold calls. crunch; lia.
Qed.

(** X3.  A call of [getFunctionMap] that returned took its result from
    the entry of the target name in the function maps cached for the
    resolved path, and a second call returns the same and leaves the pool
    as it is. *)
Theorem getFunctionMap_twice_same_functions p t s s1 f :
  getFunctionMap p t s = (s1, inr f) ->
  getFunctionMap p t s1 = (s1, inr f) /\
  exists fm, _functionMaps s1 !! resolve p = Some fm /\ val fm !! t = Some f.
Proof.
  intros E. destruct (getFunctionMap_result _ _ _ _ _ E) as [Hr _].
  destruct (_functionMaps s1 !! resolve p) as [fm|] eqn:Efm;
    [|destruct Hr; discriminate].
  destruct (val fm !! t) as [f'|] eqn:Et; [|discriminate].
  inversion Hr; subst f'. split; [|eauto].
  rewrite (getFunctionMap_hit _ _ _ _ Efm), Et. reflexivity.
Qed.

(** X4.  None of the four getters writes [_targets] or the graph cache,
    whether it returns or throws. *)
Theorem getters_leave_targets_and_graphs p t s :
  (_targets (fst (getSource p s)) = _targets s /\
   _controlFlowGraphs (fst (getSource p s)) = _controlFlowGraphs s) /\
  (_targets (fst (getAST p s)) = _targets s /\
   _controlFlowGraphs (fst (getAST p s)) = _controlFlowGraphs s) /\
  (_targets (fst (getTargetMap p s)) = _targets s /\
   _controlFlowGraphs (fst (getTargetMap p s)) = _controlFlowGraphs s) /\
  (_targets (fst (getFunctionMap p t s)) = _targets s /\
   _controlFlowGraphs (fst (getFunctionMap p t s)) = _controlFlowGraphs s).
Proof.
  unfold_pool. conj; crunch; reflexivity.
Qed.

(** X5.  Which generators a method can run, and how often: [getSource]
    the source generator only; [getAST] the source and syntax-tree
    generators; the two map getters never the graph generator, and the map
    generator at most once; [getCFG] the graph generator at most once and
    never the map generator. *)
Theorem methods_run_only_their_generators p t s :
  let n f x := calls f (trace x) in
  (n is_source_event (fst (getSource p s)) <= n is_source_event s + 1 /\
   n is_ast_event (fst (getSource p s)) = n is_ast_event s /\
   n is_target_map_event (fst (getSource p s)) = n is_target_map_event s /\
   n is_cfg_event (fst (getSource p s)) = n is_cfg_event s) /\
  (n is_source_event (fst (getAST p s)) <= n is_source_event s + 1 /\
   n is_ast_event (fst (getAST p s)) <= n is_ast_event s + 1 /\
   n is_target_map_event (fst (getAST p s)) = n is_target_map_event s /\
   n is_cfg_event (fst (getAST p s)) = n is_cfg_event s) /\
  (n is_target_map_event (fst (getTargetMap p s))
     <= n is_target_map_event s + 1 /\
   n is_cfg_event (fst (getTargetMap p s)) = n is_cfg_event s) /\
  (n is_target_map_event (fst (getFunctionMap p t s))
     <= n is_target_map_event s + 1 /\
   n is_cfg_event (fst (getFunctionMap p t s)) = n is_cfg_event s) /\
  (n is_cfg_event (fst (getCFG p t s)) <= n is_cfg_event s + 1 /\
   n is_target_map_event (fst (getCFG p t s)) = n is_target_map_event s).
Proof.
  simpl. unfold calls. unfold_pool. conj; crunch; lia.
Qed.


(** X7.  A call of [getCFG] that throws stores no graph: the graph
    cache, [_targets] and the two generated-map caches are as before. *)
Theorem getCFG_failure_stores_nothing p t s s1 e :
  getCFG p t s = (s1, inl e) ->
  _controlFlowGraphs s1 = _controlFlowGraphs s /\
  _targets s1 = _targets s /\
  _targetMap s1 = _targetMap s /\
  _functionMaps s1 = _functionMaps s.
Proof.
  intros E.
  assert (_controlFlowGraphs s1 = _controlFlowGraphs s) as Hg.
  { unfold_pool. crunch; reflexivity. }
  apply getCFG_frame in E as (Ht & Htm & Hfm & _).
  conj; assumption.
Qed.

Section MoreWithAnalyzer.
Context `{!DependencyAnalyzer}.

Lemma run_op_no_graph o s :
  _targets s = None ->
  calls is_cfg_event (trace (run_op o s)) = calls is_cfg_event (trace s).
Proof.
  intros Hu. unfold calls.
  destruct o as [p|p|p|p t|p t|p t]; simpl.
  - unfold_pool. crunch; reflexivity.
  - unfold_pool. crunch; reflexivity.
  - unfold_pool. crunch; reflexivity.
  - unfold_pool. crunch; reflexivity.
  - rewrite getCFG_undefined by assumption. reflexivity.
  - unfold createTarget, bind.
    destruct (getSource (resolve p) s) as [s1 [e|src]] eqn:E1.
    { clear -E1. unfold_pool. crunch; reflexivity. }
    destruct (getAST (resolve p) s1) as [s2 [e|ast]] eqn:E2.
    { clear -E1 E2. simpl.
      transitivity (length (List.filter is_cfg_event (trace s1))).
      - clear E1. unfold_pool. crunch; reflexivity.
      - clear E2. unfold_pool. crunch; reflexivity. }
    assert (length (List.filter is_cfg_event (trace s2)) =
            length (List.filter is_cfg_event (trace s))) as H12.
    { transitivity (length (List.filter is_cfg_event (trace s1))).
      - clear -E2. unfold_pool. crunch; reflexivity.
      - clear -E1. unfold_pool. crunch; reflexivity. }
    assert (_targets s2 = None) as Hu2.
    { apply getSource_frame in E1 as (Ht1 & _).
      apply getAST_frame in E2 as (Ht2 & _). congruence. }
    destruct (getFunctionMap (resolve p) t s2) as [s3 [e|fm]] eqn:E3.
    { simpl. rewrite <- H12. clear -E3. unfold_pool. crunch; reflexivity. }
    assert (_targets s3 = None) as Hu3.
    { clear -E3 Hu2. unfold_pool. crunch; assumption. }
    rewrite getCFG_undefined by assumption. simpl. rewrite <- H12.
    clear -E3. unfold_pool. crunch; reflexivity.
Qed.

Lemma run_ops_no_graph ops s :
  _targets s = None ->
  maps_paired s ->
  calls is_cfg_event (trace (run_ops ops s)) = calls is_cfg_event (trace s).
Proof.
  revert s. induction ops as [|o ops IH]; intros s Hu Hp; [reflexivity|].
  destruct (run_op_undefined o s Hu Hp) as (Hu1 & _ & _ & Hp1).
  change (run_ops (o :: ops) s) with (run_ops ops (run_op o s)).
  rewrite (IH _ Hu1 Hp1). apply run_op_no_graph. assumption.
Qed.

(** X8.  On every pool reached from the constructor the graph cache is
    empty and the graph generator has never run; the target map and the
    function maps are paired. *)
Theorem constructor_pool_never_builds_a_graph w ops :
  let s := run_ops ops (constructor w) in
  _controlFlowGraphs s = ∅ /\
  calls is_cfg_event (trace s) = 0 /\
  maps_paired s.
Proof.
  simpl.
  destruct (run_ops_undefined ops (constructor w) eq_refl (constructor_paired w))
    as (_ & Hg & _ & Hp).
  conj; try assumption.
  rewrite run_ops_no_graph; [reflexivity | reflexivity |].
  apply constructor_paired.
Qed.

Lemma getSource_stores p s s1 src :
  getSource p s = (s1, inr src) -> _sources s1 !! resolve p = Some src.
Proof. intros E. unfold_pool. crunch; simplify_map_eq; done. Qed.

Lemma getAST_stores p s s1 ast :
  getAST p s = (s1, inr ast) -> _abstractSyntaxTrees s1 !! resolve p = Some ast.
Proof. intros E. unfold_pool. crunch; simplify_map_eq; done. Qed.

Lemma keeps_pool_run {A} (m : M A) s s1 r :
  keeps_pool m ->
  maps_paired s ->
  m s = (s1, r) ->
  _targets s1 = _targets s /\
  _controlFlowGraphs s1 = _controlFlowGraphs s /\
  caches_kept s s1 /\
  maps_paired s1.
Proof.
  intros Hk Hp E. destruct (Hk s) as (Ht & Hg & Hc & Hp1).
  rewrite E in *. simpl in *. auto.
Qed.

(** The run of [createTarget] with an analyzer that keeps the pool,
    stage by stage. *)
Lemma createTarget_stages p t s s1 r :
  analyzer_keeps_pool ->
  maps_paired s ->
  createTarget p t s = (s1, r) ->
  caches_kept s s1 /\
  maps_paired s1 /\
  match r with
  | inl e => _targets s1 = _targets s
  | inr target =>
      exists ts inner src ast ctx fm fmo cfg link deps,
        _targets s = Some ts /\
        ts !! p = Some inner /\
        _targets s1 = Some (<[p := {[ t := target ]}]> ts) /\
        val target = newTarget (resolve p) t src ast ctx fm cfg link deps /\
        _sources s1 !! resolve (resolve p) = Some src /\
        _abstractSyntaxTrees s1 !! resolve (resolve p) = Some ast /\
        _functionMaps s1 !! resolve (resolve p) = Some fmo /\
        val fmo !! t = Some fm
  end.
Proof.
  intros (Ki & Kc & Kh & Kl) Hp E. unfold createTarget, bind in E.
  destruct (getSource (resolve p) s) as [s2 [e|src]] eqn:E1;
    pose proof E1 as F1;
    apply getSource_kept in F1 as (Ht1 & _ & _ & Hk1 & Hp1); try assumption.
  { inversion E; subst. auto. }
  apply getSource_stores in E1.
  destruct (getAST (resolve p) s2) as [s3 [e|ast]] eqn:E2;
    pose proof E2 as F2;
    apply getAST_kept in F2 as (Ht2 & _ & _ & Hk2 & Hp2); try assumption.
  { inversion E; subst. conj; eauto using caches_kept_trans. congruence. }
  apply getAST_stores in E2.
  destruct (getFunctionMap (resolve p) t s3) as [s4 [e|fm]] eqn:E3;
    pose proof E3 as F3;
    apply getFunctionMap_frame in F3 as (Ht3 & _ & _ & Hk3 & Hp3);
    try assumption.
  { inversion E; subst. conj; eauto using caches_kept_trans. congruence. }
  apply getFunctionMap_result in E3 as [E3 _].
  destruct (_functionMaps s4 !! resolve (resolve p)) as [fmo|] eqn:Efm;
    [|destruct E3; discriminate].
  destruct (val fmo !! t) as [fm'|] eqn:Efn; [|discriminate].
  inversion E3; subst fm'. clear E3.
  destruct (getCFG (resolve p) t s4) as [s5 [e|cfg]] eqn:E4;
    apply getCFG_kept in E4 as (Ht4 & _ & Hk4 & Hp4); try assumption.
  { inversion E; subst. conj; eauto 6 using caches_kept_trans. congruence. }
  destruct (analyzeImports p s5) as [s6 [e|ig]] eqn:E5;
    apply keeps_pool_run in E5 as (Ht5 & _ & Hk5 & Hp5); try auto.
  { inversion E; subst. conj; eauto 7 using caches_kept_trans. congruence. }
  destruct (analyzeContext ig s6) as [s7 [e|ctx]] eqn:E6;
    apply keeps_pool_run in E6 as (Ht6 & _ & Hk6 & Hp6); try auto.
  { inversion E; subst. conj; eauto 8 using caches_kept_trans. congruence. }
  destruct (analyzeInheritance ctx t s7) as [s8 [e|ih]] eqn:E7;
    apply keeps_pool_run in E7 as (Ht7 & _ & Hk7 & Hp7); try auto.
  { inversion E; subst. conj; eauto 9 using caches_kept_trans. congruence. }
  destruct (analyzeLinking ig ctx t s8) as [s9 [e|link]] eqn:E8;
    apply keeps_pool_run in E8 as (Ht8 & _ & Hk8 & Hp8); try auto.
  { inversion E; subst. conj; eauto 10 using caches_kept_trans. congruence. }
  assert (caches_kept s s9) as Hk by eauto 10 using caches_kept_trans.
  assert (caches_kept s4 s9) as Hk49 by eauto 10 using caches_kept_trans.
  assert (caches_kept s3 s9) as Hk39 by eauto 10 using caches_kept_trans.
  assert (caches_kept s2 s9) as Hk29 by eauto 10 using caches_kept_trans.
  assert (_targets s9 = _targets s) as Ht by congruence.
  destruct Hk29 as (Hs29 & _). destruct Hk39 as (_ & Ha39 & _).
  destruct Hk49 as (_ & _ & _ & Hf49).
  pose proof (lookup_weaken _ _ _ _ E1 Hs29) as Hsrc.
  pose proof (lookup_weaken _ _ _ _ E2 Ha39) as Hast.
  pose proof (lookup_weaken _ _ _ _ Efm Hf49) as Hfmo.
  clear - E Hk Hp8 Ht Hsrc Hast Hfmo Efn.
  unfold new_Target, targets_of, modify, ret, throw, bind in E.
  unfold allocated in E. simpl in E.
  destruct (_targets s9) as [ts9|] eqn:Ets9; simpl in E.
  2:{ inversion E; subst. conj; [exact Hk | exact Hp8 | simpl; congruence]. }
  destruct (ts9 !! p) as [inner|] eqn:Ep; simpl in E.
  - rewrite lookup_insert_eq in E. simpl in E. inversion E; subst.
    conj; [exact Hk | exact Hp8 |].
    exists ts9, inner, src, ast, ctx, fm, fmo, cfg, link, (getNodes ig).
    simpl. conj; try assumption; try reflexivity; try congruence.
    rewrite insert_insert_eq, insert_empty. reflexivity.
  - rewrite ?Ep in E. simpl in E. inversion E; subst.
    conj; [exact Hk | exact Hp8 | simpl; congruence].
Qed.



Lemma run_op_keeps o s :
  analyzer_keeps_pool ->
  maps_paired s ->
  caches_kept s (run_op o s) /\ maps_paired (run_op o s).
Proof.
  intros Hk Hp. destruct (is_createTarget o) eqn:Ho.
  - destruct o as [| | | | |p t]; try discriminate. simpl.
    destruct (createTarget p t s) as [s1 r] eqn:E.
    apply createTarget_stages in E as (Hc & Hp1 & _); auto.
  - destruct (run_op_getter o s Hp Ho) as (_ & Hc & Hp1). auto.
Qed.


End MoreWithAnalyzer.

End MorePoolFacts.

(** * Properties of the launcher *)

Lemma union_member (X Y : gset string) (x : string) :
  x ∈ X -> X ∪ ({[ x ]} ∪ Y) = X ∪ Y.
Proof.
  intros Hx. apply set_eq. intros y.
  rewrite !elem_of_union, elem_of_singleton. intuition (subst; auto).
Qed.

Lemma union_insert (X Y : gset string) (x : string) :
  {[ x ]} ∪ X ∪ Y = X ∪ ({[ x ]} ∪ Y).
Proof.
  apply set_eq. intros y.
  rewrite !elem_of_union, elem_of_singleton. intuition (subst; auto).
Qed.

Lemma union_union (X Y Z : gset string) : X ∪ Y ∪ Z = X ∪ (Y ∪ Z).
Proof. apply set_eq. intros y. rewrite !elem_of_union. tauto. Qed.

Section LauncherFacts.
Context `{Collaborators}.
Variable basename : string -> string.

(** What a call of [getSource] that returned did to the source cache and
    to the trace: nothing on a hit, one entry and one invocation on a
    miss. *)
Lemma getSource_returned p s s1 src :
  getSource p s = (s1, inr src) ->
  _sources s1 !! resolve p = Some src /\
  (s1 = s \/
   _sources s !! resolve p = None /\
   _sources s1 = <[resolve p := src]> (_sources s) /\
   trace s1 = SourceGenerated (resolve p) :: trace s).
Proof.
  intros E. unfold_pool. crunch.
  - split; [assumption | left; reflexivity].
  - split; [apply lookup_insert_eq | right; auto].
Qed.

Lemma push_sources_returned paths : forall acc s s1 targets,
  push_sources basename paths acc s = (s1, inr targets) ->
  exists new,
    targets = (acc ++ new)%list /\
    canonicalPath <$> new = paths /\
    Forall (fun f => _sources s1 !! resolve (canonicalPath f) = Some (source f) /\
                     relativePath f = basename (canonicalPath f)) new /\
    _sources s ⊆ _sources s1.
Proof.
  induction paths as [|p rest IH]; intros acc s s1 targets E; simpl in E.
  - inversion E; subst. exists []. rewrite app_nil_r. auto.
  - unfold bind in E.
    destruct (getSource p s) as [s2 [e|src]] eqn:E1; [discriminate|].
    pose proof E1 as F1. apply getSource_frame in F1 as (_ & _ & _ & _ & _ & _ & Hs).
    apply getSource_returned in E1 as [E1 _].
    apply IH in E as (new & -> & Hc & Hall & Hs2).
    exists (mkTargetFile src p (basename p) :: new).
    conj.
    + rewrite <- app_assoc. reflexivity.
    + rewrite fmap_cons, Hc. reflexivity.
    + constructor; [|assumption]. simpl. split; [|reflexivity].
      eapply lookup_weaken; eassumption.
    + etrans; eassumption.
Qed.

(** X12.  When the two loading loops of the launcher complete,
    [skipped] is empty and [targets] lists the included paths followed by
    the excluded ones, each with the source the pool caches for it and the
    base name of its path. *)
Theorem load_target_files_lists_every_path included excluded s s1 targets skipped :
  load_target_files basename included excluded s = (s1, inr (targets, skipped)) ->
  skipped = [] /\
  canonicalPath <$> targets = (included ++ excluded)%list /\
  Forall (fun f => _sources s1 !! resolve (canonicalPath f) = Some (source f) /\
                   relativePath f = basename (canonicalPath f)) targets.
Proof.
  intros E. unfold load_target_files, bind, ret in E.
  destruct (push_sources basename included [] s) as [s2 [e|t1]] eqn:E1;
    [discriminate|].
  destruct (push_sources basename excluded t1 s2) as [s3 [e|t2]] eqn:E2;
    [discriminate|].
  inversion E; subst. clear E.
  apply push_sources_returned in E1 as (n1 & -> & Hc1 & Hall1 & Hs1).
  apply push_sources_returned in E2 as (n2 & -> & Hc2 & Hall2 & Hs2).
  simpl. conj; [reflexivity | |].
  - rewrite fmap_app, Hc1, Hc2. reflexivity.
  - apply Forall_app. split; [|assumption].
    eapply Forall_impl; [exact Hall1|]. simpl. intros f [Hf Hr].
    split; [|assumption]. eapply lookup_weaken; eassumption.
Qed.

Lemma getSource_other_fields p s :
  let s1 := fst (getSource p s) in
  _targets s1 = _targets s /\
  _abstractSyntaxTrees s1 = _abstractSyntaxTrees s /\
  _targetMap s1 = _targetMap s /\
  _functionMaps s1 = _functionMaps s /\
  _controlFlowGraphs s1 = _controlFlowGraphs s /\
  next_id s1 = next_id s /\
  List.filter (fun e => negb (is_source_event e)) (trace s1)
    = List.filter (fun e => negb (is_source_event e)) (trace s).
Proof. simpl. unfold_pool. crunch; conj; reflexivity. Qed.

Lemma push_sources_other_fields paths : forall acc s,
  let s1 := fst (push_sources basename paths acc s) in
  _targets s1 = _targets s /\
  _abstractSyntaxTrees s1 = _abstractSyntaxTrees s /\
  _targetMap s1 = _targetMap s /\
  _functionMaps s1 = _functionMaps s /\
  _controlFlowGraphs s1 = _controlFlowGraphs s /\
  next_id s1 = next_id s /\
  List.filter (fun e => negb (is_source_event e)) (trace s1)
    = List.filter (fun e => negb (is_source_event e)) (trace s).
Proof.
  induction paths as [|p rest IH]; intros acc s; simpl.
  - conj; reflexivity.
  - unfold bind. pose proof (getSource_other_fields p s) as Hg. simpl in Hg.
    destruct (getSource p s) as [s2 [e|src]] eqn:E1; simpl in *;
      [exact Hg|].
    destruct Hg as (G1 & G2 & G3 & G4 & G5 & G6 & G7).
    destruct (IH (acc ++ [mkTargetFile src p (basename p)])%list s2)
      as (I1 & I2 & I3 & I4 & I5 & I6 & I7).
    conj; congruence.
Qed.

(** X13.  The loading loops write no field of the pool but the source
    cache and run no generator but the source generator, whether they
    complete or throw. *)
Theorem load_target_files_touches_sources_only included excluded s :
  let s1 := fst (load_target_files basename included excluded s) in
  _targets s1 = _targets s /\
  _abstractSyntaxTrees s1 = _abstractSyntaxTrees s /\
  _targetMap s1 = _targetMap s /\
  _functionMaps s1 = _functionMaps s /\
  _controlFlowGraphs s1 = _controlFlowGraphs s /\
  next_id s1 = next_id s /\
  List.filter (fun e => negb (is_source_event e)) (trace s1)
    = List.filter (fun e => negb (is_source_event e)) (trace s).
Proof.
  simpl. unfold load_target_files, bind, ret.
  pose proof (push_sources_other_fields included [] s) as H1. simpl in H1.
  destruct (push_sources basename included [] s) as [s2 [e|t1]]; simpl in *;
    [exact H1|].
  pose proof (push_sources_other_fields excluded t1 s2) as H2. simpl in H2.
  destruct (push_sources basename excluded t1 s2) as [s3 [e|t2]]; simpl in *;
    destruct H1 as (G1 & G2 & G3 & G4 & G5 & G6 & G7);
    destruct H2 as (I1 & I2 & I3 & I4 & I5 & I6 & I7);
    conj; congruence.
Qed.

Lemma push_sources_count paths : forall acc s s1 targets,
  push_sources basename paths acc s = (s1, inr targets) ->
  dom (_sources s1) = dom (_sources s) ∪ list_to_set (resolve <$> paths) /\
  calls is_source_event (trace s1) + size (_sources s)
    = calls is_source_event (trace s) + size (_sources s1).
Proof.
  induction paths as [|p rest IH]; intros acc s s1 targets E; simpl in E.
  - inversion E; subst. split; [|lia].
    rewrite fmap_nil, list_to_set_nil, (right_id_L ∅ (∪)). reflexivity.
  - unfold bind in E.
    destruct (getSource p s) as [s2 [e|src]] eqn:E1; [discriminate|].
    apply getSource_returned in E1 as [Hl Hcase].
    apply IH in E as [Hd Hn]. rewrite fmap_cons, list_to_set_cons.
    destruct Hcase as [->|(Hnone & Hins & Htr)].
    + split; [|assumption]. rewrite Hd.
      symmetry. apply union_member, elem_of_dom. eauto.
    + split.
      * rewrite Hd, Hins, dom_insert_L. apply union_insert.
      * rewrite Hins, map_size_insert_None in Hn by assumption.
        rewrite Htr in Hn. unfold calls in *. simpl in Hn. lia.
Qed.

(** X14.  When the loading loops complete, the source cache holds the
    resolved form of every listed path beside what it held, and the source
    generator ran once for each entry the cache gained: a file listed twice
    is loaded once. *)
Theorem load_target_files_loads_each_file_once included excluded s s1 r :
  load_target_files basename included excluded s = (s1, inr r) ->
  dom (_sources s1)
    = dom (_sources s) ∪ list_to_set (resolve <$> (included ++ excluded)%list) /\
  calls is_source_event (trace s1) + size (_sources s)
    = calls is_source_event (trace s) + size (_sources s1).
Proof.
  intros E. unfold load_target_files, bind, ret in E.
  destruct (push_sources basename included [] s) as [s2 [e|t1]] eqn:E1;
    [discriminate|].
  destruct (push_sources basename excluded t1 s2) as [s3 [e|t2]] eqn:E2;
    [discriminate|].
  inversion E; subst. clear E.
  apply push_sources_count in E1 as [Hd1 Hn1].
  apply push_sources_count in E2 as [Hd2 Hn2].
  split; [|lia]. rewrite Hd2, Hd1, fmap_app, list_to_set_app_L.
  apply union_union.
Qed.

Lemma load_target_files_targets included excluded s :
  _targets (fst (load_target_files basename included excluded s)) = _targets s.
Proof.
  unfold load_target_files, bind, ret.
  pose proof (push_sources_other_fields included [] s) as H1. simpl in H1.
  destruct (push_sources basename included [] s) as [s2 [e|t1]]; simpl in *;
    [tauto|].
  pose proof (push_sources_other_fields excluded t1 s2) as H2. simpl in H2.
  destruct (push_sources basename excluded t1 s2) as [s3 [e|t2]]; simpl in *;
    destruct H1 as (G1 & _); destruct H2 as (I1 & _); congruence.
Qed.

Lemma getTargetMap_targets p s :
  _targets (fst (getTargetMap p s)) = _targets s.
Proof. unfold_pool. crunch; reflexivity. Qed.

(** X15.  On the pool the launcher builds (the constructor, the loading
    loops, [getTargetMap]), [_targets] is undefined, and [testTarget] throws
    the [TypeError] at its first call on the pool, leaving it as it is. *)
Theorem launcher_pool_cannot_test_a_target w included excluded p t :
  let s1 := fst (load_target_files basename included excluded (constructor w)) in
  let s2 := fst (getTargetMap p s1) in
  _targets s2 = None /\
  testTarget p t s2 = (s2, inl (TypeError "has")).
Proof.
  simpl.
  assert (_targets
            (fst (getTargetMap p
               (fst (load_target_files basename included excluded
                       (constructor w))))) = None) as Hu.
  { rewrite getTargetMap_targets, load_target_files_targets. reflexivity. }
  split; [assumption|].
  unfold testTarget, bind. rewrite getCFG_undefined by assumption. reflexivity.
Qed.

(** X16.  A target of an included file is tested exactly when the
    include list names it or holds the wildcard, and the file has no exclude
    list or one that neither names the target nor holds the wildcard. *)
Theorem is_tested_iff includedTargets excludedTargets target :
  is_tested includedTargets excludedTargets target = true <->
  ("*" ∈ includedTargets \/ target ∈ includedTargets) /\
  match excludedTargets with
  | Some ex => ~ ("*" ∈ ex \/ target ∈ ex)
  | None => True
  end.
Proof.
  unfold is_tested. destruct excludedTargets as [ex|];
    repeat (case_bool_decide; simpl); split; intros;
    try discriminate; try tauto.
Qed.

End LauncherFacts.

(** * Properties of the coverage statistics *)

Section CoverageFacts.
Variable show : Z -> string.

Lemma foldl_visit l : forall sets,
  foldl (visit show) sets l =
    (fst sets ∪ list_to_set (trace_key show <$> l),
     snd sets ∪ list_to_set (trace_key show <$> List.filter hit l)).
Proof.
  induction l as [|x l IH]; intros [total covered]; simpl.
  - rewrite !(right_id_L ∅ (∪)). reflexivity.
  - rewrite IH. unfold visit, hit. simpl.
    destruct (0 <? tr_hits x)%Z; simpl;
      rewrite ?fmap_cons, ?list_to_set_cons, ?(assoc_L (∪)); reflexivity.
Qed.

Lemma foldl_collect objectiveType a : forall sets,
  foldl (fun sets o => foldl (visit show) sets (visited objectiveType o)) sets a =
    (fst sets ∪
       list_to_set (trace_key show <$> flat_map (visited objectiveType) a),
     snd sets ∪
       list_to_set (trace_key show <$>
                      List.filter hit (flat_map (visited objectiveType) a))).
Proof.
  induction a as [|o a IH]; intros [total covered]; simpl.
  - rewrite !(right_id_L ∅ (∪)). reflexivity.
  - rewrite IH, foldl_visit. simpl.
    rewrite List.filter_app, !fmap_app, !list_to_set_app_L, !(assoc_L (∪)).
    reflexivity.
Qed.

(** X17.  The sets built by [collectCoverageData]: [total] holds the keys
    of the visited traces of all objectives, [covered] the keys of those
    that were hit. *)
Theorem collect_is_the_set_of_keys objectiveType archive :
  fst (collect show objectiveType archive)
    = list_to_set (trace_key show <$> flat_map (visited objectiveType) archive) /\
  snd (collect show objectiveType archive)
    = list_to_set (trace_key show <$>
        List.filter hit (flat_map (visited objectiveType) archive)).
Proof.
  unfold collect. rewrite foldl_collect. simpl.
  rewrite !(left_id_L ∅ (∪)). split; reflexivity.
Qed.

Lemma collect_covered_subseteq objectiveType archive :
  snd (collect show objectiveType archive)
    ⊆ fst (collect show objectiveType archive).
Proof.
  unfold collect. rewrite foldl_collect. simpl.
  rewrite !(left_id_L ∅ (∪)).
  intros k. rewrite !elem_of_list_to_set, !list_elem_of_fmap.
  intros (e & -> & He). exists e. split; [reflexivity|].
  apply list_elem_of_In in He. apply List.filter_In in He as [He _].
  apply list_elem_of_In. assumption.
Qed.

(** X18.  [collectCoverageData] never records more covered than total;
    for the three known objective types it records the two counts and their
    quotient, or zero when there is nothing to cover, and for any other type
    it records nothing. *)
Theorem collectCoverageData_records_a_fraction archive objectiveType :
  let total := size (fst (collect show objectiveType archive)) in
  let covered := size (snd (collect show objectiveType archive)) in
  covered <= total /\
  (collectCoverageData show archive objectiveType = [] \/
   exists c t r,
     collectCoverageData show archive objectiveType
       = [(c, Count covered); (t, Count total); (r, coverage covered total)] /\
     (c, t, r) ∈ [(COVERED_BRANCHES, TOTAL_BRANCHES, BRANCH_COVERAGE);
                  (COVERED_LINES, TOTAL_LINES, LINE_COVERAGE);
                  (COVERED_FUNCTIONS, TOTAL_FUNCTIONS, FUNCTION_COVERAGE)]) /\
  (coverage covered total = Count 0 /\ total = 0 \/
   coverage covered total = Quotient covered total /\ 0 < total) /\
  (collectCoverageData show archive objectiveType = [] <->
   objectiveType ∉ ["branch"; "statement"; "function"]).
Proof.
  simpl. conj.
  - apply subseteq_size, collect_covered_subseteq.
  - unfold collectCoverageData. repeat case_decide; eauto.
    + right. do 3 eexists. split; [reflexivity|]. apply list_elem_of_here.
    + right. do 3 eexists. split; [reflexivity|].
      apply list_elem_of_further, list_elem_of_here.
    + right. do 3 eexists. split; [reflexivity|].
      do 2 apply list_elem_of_further. apply list_elem_of_here.
  - unfold coverage.
    destruct (size (fst (collect show objectiveType archive))) as [|n]; simpl.
    + left. auto.
    + right. split; [reflexivity | lia].
  - unfold collectCoverageData. rewrite !not_elem_of_cons.
    repeat case_decide; split; try discriminate; try tauto.
    intros _. conj; try assumption. apply not_elem_of_nil.
Qed.

Lemma size_list_to_set_le (l : list string) :
  size (list_to_set l : gset string) <= length l.
Proof.
  induction l as [|x l IH].
  - rewrite list_to_set_nil, size_empty. simpl. lia.
  - rewrite list_to_set_cons, size_union_alt, size_singleton. simpl.
    assert (size (list_to_set l ∖ {[x]} : gset string)
              <= size (list_to_set l : gset string)).
    { apply subseteq_size. intros y. rewrite elem_of_difference. tauto. }
    lia.
Qed.

Lemma foldl_add_probes l : forall covered : gset string,
  foldl (fun covered postTrace => covered ∪ {[ probe_key show postTrace ]})
    covered l
  = covered ∪ list_to_set (probe_key show <$> l).
Proof.
  induction l as [|x l IH]; intros covered; simpl.
  - rewrite (right_id_L ∅ (∪)). reflexivity.
  - rewrite IH, (assoc_L (∪)). reflexivity.
Qed.

(** The post-traces the nested loops of one objective reach. *)
Lemma visit_probes_keys o covered :
  visit_probes show o covered
  = covered ∪
    list_to_set
      (probe_key show <$>
         flat_map
           (fun trace =>
              List.filter
                (fun postTrace => (tr_line postTrace =? tr_line trace)%Z)
                (postTraces o))
           (preTraces o)).
Proof.
  unfold visit_probes. generalize (preTraces o) as pres. intros pres.
  revert covered. induction pres as [|x pres IH]; intros covered; simpl.
  - rewrite (right_id_L ∅ (∪)). reflexivity.
  - rewrite IH, foldl_add_probes, fmap_app, list_to_set_app_L, (assoc_L (∪)).
    reflexivity.
Qed.

Lemma visit_probes_within_posts o :
  visit_probes show o ∅ ⊆ list_to_set (probe_key show <$> postTraces o).
Proof.
  rewrite visit_probes_keys, (left_id_L ∅ (∪)). intros k.
  rewrite !elem_of_list_to_set, !list_elem_of_fmap.
  intros (e & -> & He). exists e. split; [reflexivity|].
  apply list_elem_of_In, List.in_flat_map in He as (pre & _ & He).
  apply List.filter_In in He as [He _]. apply list_elem_of_In. assumption.
Qed.

(** X19.  [collectProbeCoverageData] records as total twice the number of
    post-traces of the last objective alone, while the covered set keeps
    what the earlier objectives put in it. *)
Theorem probe_total_is_of_the_last_objective archive o :
  fst (collect_probes show (archive ++ [o])) = length (postTraces o) * 2 /\
  snd (collect_probes show archive)
    ⊆ snd (collect_probes show (archive ++ [o])) /\
  collectProbeCoverageData show (archive ++ [o])
    = [(COVERED_PROBES,
        Count (size (snd (collect_probes show (archive ++ [o])))));
       (TOTAL_PROBES, Count (length (postTraces o) * 2));
       (PROBE_COVERAGE,
        coverage (size (snd (collect_probes show (archive ++ [o]))))
                 (length (postTraces o) * 2))].
Proof.
  unfold collectProbeCoverageData, collect_probes. rewrite foldl_snoc. simpl.
  conj; try reflexivity.
  rewrite visit_probes_keys. apply union_subseteq_l.
Qed.

(** X20.  For an archive of one objective at most half of the recorded
    total of probes is covered; for an empty archive three zeros are
    recorded. *)
Theorem probe_coverage_of_one_objective o :
  size (snd (collect_probes show [o])) * 2 <= fst (collect_probes show [o]) /\
  collectProbeCoverageData show []
    = [(COVERED_PROBES, Count 0); (TOTAL_PROBES, Count 0);
       (PROBE_COVERAGE, Count 0)].
Proof.
  split; [|reflexivity].
  unfold collect_probes. simpl.
  pose proof (subseteq_size _ _ (visit_probes_within_posts o)) as H1.
  pose proof (size_list_to_set_le (probe_key show <$> postTraces o)) as H2.
  rewrite length_fmap in H2. lia.
Qed.

(** X21.  More objectives in the archive never remove a key from [total]
    or from [covered]. *)
Theorem collect_grows_with_the_archive objectiveType archive more :
  fst (collect show objectiveType archive)
    ⊆ fst (collect show objectiveType (archive ++ more)) /\
  snd (collect show objectiveType archive)
    ⊆ snd (collect show objectiveType (archive ++ more)).
Proof.
  unfold collect. rewrite foldl_app.
  rewrite (foldl_collect objectiveType more). simpl.
  split; apply union_subseteq_l.
Qed.

End CoverageFacts.

Import Demo.

(** * The properties at work on the concrete pool *)

Lemma pair_by_parts {A B} (x : A * B) (b : B) : snd x = b -> x = (fst x, b).
Proof. destruct x; simpl; intros ->; reflexivity. Qed.

Lemma fresh_paired : maps_paired Demo.fresh.
Proof. intros k. reflexivity. Qed.

Lemma opened_paired : maps_paired Demo.opened.
Proof. intros k. reflexivity. Qed.

Lemma getAST_twice_same_instance_witness :
  let s1 := fst (getAST "a.sol" Demo.fresh) in
  getAST "a.sol" s1 = (s1, inr (Obj 0 "A")) /\
  calls is_source_event (trace s1)
    <= calls is_source_event (trace Demo.fresh) + 1 /\
  calls is_ast_event (trace s1) <= calls is_ast_event (trace Demo.fresh) + 1.
Proof.
  apply (getAST_twice_same_instance "a.sol" Demo.fresh).
  apply pair_by_parts. vm_compute. reflexivity.
Defined.













Lemma getters_leave_other_paths_witness :
  let s := fst (getTargetMap "b.sol" Demo.fresh) in
  entries_at "/cwd/b.sol" (fst (getSource "/cwd/a.sol" s))
    = entries_at "/cwd/b.sol" s /\
  entries_at "/cwd/b.sol" (fst (getAST "/cwd/a.sol" s))
    = entries_at "/cwd/b.sol" s /\
  entries_at "/cwd/b.sol" (fst (getTargetMap "/cwd/a.sol" s))
    = entries_at "/cwd/b.sol" s /\
  entries_at "/cwd/b.sol" (fst (getFunctionMap "/cwd/a.sol" "A" s))
    = entries_at "/cwd/b.sol" s.
Proof.
  apply getters_leave_other_paths.
  - reflexivity.
  - discriminate.
Defined.

Lemma listed_paired : maps_paired Demo.listed.
Proof. intros k. reflexivity. Qed.

Lemma ret_keeps_pool {A : Type} (a : A) :
  keeps_pool (H := Demo.collaborators) (ret a).
Proof.
  intros s. simpl. conj; try reflexivity; try (intros; assumption).
  apply caches_kept_refl.
Qed.

Lemma demo_analyzer_keeps_pool : analyzer_keeps_pool (H := Demo.collaborators).
Proof. unfold analyzer_keeps_pool. conj; intros; apply ret_keeps_pool. Qed.

Lemma getSource_twice_same_source_witness :
  let s1 := fst (getSource "a.sol" Demo.fresh) in
  getSource "a.sol" s1 = (s1, inr "A") /\
  _sources s1 !! resolve "a.sol" = Some "A" /\
  calls is_source_event (trace s1)
    <= calls is_source_event (trace Demo.fresh) + 1.
Proof.
  apply (getSource_twice_same_source "a.sol" Demo.fresh).
  apply pair_by_parts. vm_compute. reflexivity.
Defined.

Lemma getTargetMap_twice_same_instance_witness :
  let s1 := fst (getTargetMap "a.sol" Demo.fresh) in
  getTargetMap "a.sol" s1 = (s1, inr (Obj 1 {[ "A" := 0 ]})) /\
  _targetMap s1 !! resolve "a.sol" = Some (Obj 1 {[ "A" := 0 ]}) /\
  calls is_target_map_event (trace s1)
    <= calls is_target_map_event (trace Demo.fresh) + 1.
Proof.
  apply (getTargetMap_twice_same_instance "a.sol" Demo.fresh).
  apply pair_by_parts. vm_compute. reflexivity.
Defined.

Lemma getFunctionMap_twice_same_functions_witness :
  let s1 := fst (getFunctionMap "a.sol" "A" Demo.fresh) in
  getFunctionMap "a.sol" "A" s1 = (s1, inr {[ "f" := 1 ]}) /\
  exists fm,
    _functionMaps s1 !! resolve "a.sol" = Some fm /\
    val fm !! "A" = Some {[ "f" := 1 ]}.
Proof.
  apply (getFunctionMap_twice_same_functions "a.sol" "A" Demo.fresh).
  apply pair_by_parts. vm_compute. reflexivity.
Defined.


Lemma getCFG_failure_stores_nothing_witness :
  let s1 := fst (getCFG "bad.sol" "A" Demo.opened) in
  _controlFlowGraphs s1 = _controlFlowGraphs Demo.opened /\
  _targets s1 = _targets Demo.opened /\
  _targetMap s1 = _targetMap Demo.opened /\
  _functionMaps s1 = _functionMaps Demo.opened.
Proof.
  apply (getCFG_failure_stores_nothing "bad.sol" "A" Demo.opened _
           (Error "ParserError")).
  apply pair_by_parts. vm_compute. reflexivity.
Defined.




Lemma load_target_files_lists_every_path_witness :
  let s1 := fst (load_target_files last_segment ["a.sol"] ["b.sol"; "a.sol"]
                   Demo.fresh) in
  let targets := [mkTargetFile "A" "a.sol" "a.sol";
                  mkTargetFile "B" "b.sol" "b.sol";
                  mkTargetFile "A" "a.sol" "a.sol"] in
  ([] : list TargetFile) = [] /\
  canonicalPath <$> targets = (["a.sol"] ++ ["b.sol"; "a.sol"])%list /\
  Forall (fun f => _sources s1 !! resolve (canonicalPath f) = Some (source f) /\
                   relativePath f = last_segment (canonicalPath f)) targets.
Proof.
  apply (load_target_files_lists_every_path last_segment
           ["a.sol"] ["b.sol"; "a.sol"] Demo.fresh).
  apply pair_by_parts. vm_compute. reflexivity.
Defined.

Lemma load_target_files_loads_each_file_once_witness :
  let s1 := fst (load_target_files last_segment ["a.sol"] ["b.sol"; "a.sol"]
                   Demo.fresh) in
  dom (_sources s1)
    = dom (_sources Demo.fresh) ∪
      list_to_set (resolve <$> (["a.sol"] ++ ["b.sol"; "a.sol"])%list) /\
  calls is_source_event (trace s1) + size (_sources Demo.fresh)
    = calls is_source_event (trace Demo.fresh) + size (_sources s1).
Proof.
  apply (load_target_files_loads_each_file_once last_segment
           ["a.sol"] ["b.sol"; "a.sol"] Demo.fresh _
           ([mkTargetFile "A" "a.sol" "a.sol";
             mkTargetFile "B" "b.sol" "b.sol";
             mkTargetFile "A" "a.sol" "a.sol"], [])).
  apply pair_by_parts. vm_compute. reflexivity.
Defined.
